(** * Bank API (src/app.js): the account store, the session registry,
      the rate-limit middleware and the route handlers

    A shallow embedding of the in-memory bank of [src/app.js] and the
    properties of its ledger.

    Conventions of the embedding.
    - [accounts] and [sessions] are the two JS [Map]s; an account object is
      identified with the key it is stored under (the code never deletes or
      rebinds a key of [accounts], so the object held in a local variable
      such as [sender] is the one [accounts.get] returns later).
    - Request payloads are typed: an identifier field of [req.body] is
      absent or a string, a numeric field is absent or an integer, and
      arithmetic on numbers is exact (integers in the range where JS doubles
      are exact).
    - A request is one that reaches the rate-limit middleware, its JSON
      body parsed.
    - The two uses of [Math.random()] are inputs of the request ([Draw]).
    - The [date] field of a transaction, the logger and the Prometheus
      counters are not represented, except for the [error_type] label a
      failing path reports, which is kept in the outcome. *)

From stdpp Require Import gmap strings list fin_maps.
From Stdlib Require Import ZArith Lia.

Local Open Scope Z_scope.
#[local] Set Warnings "-clear-no-such-hyp".

(** ** Data model *)

(** [{ type: 'debit', amount, to }], [{ type: 'credit', amount, from }],
    [{ type: 'loan', amount }]. *)
Inductive Transaction :=
| debit (amount : Z) (to : string)
| credit (amount : Z) (from : string)
| loan (amount : Z).

(** The value stored in [accounts]: [{ name, balance, transactions }]. *)
Record Account := {
  name : string;
  balance : Z;
  transactions : list Transaction
}.

(** The "mock database": [accounts], [sessions], [requestCount]. *)
Record Db := {
  accounts : gmap string Account;
  sessions : gmap string string;
  requestCount : Z
}.

Definition init : Db :=
  {| accounts := ∅; sessions := ∅; requestCount := 0 |}.

Definition set_accounts (m : gmap string Account) (d : Db) : Db :=
  {| accounts := m; sessions := sessions d; requestCount := requestCount d |}.

Definition set_sessions (m : gmap string string) (d : Db) : Db :=
  {| accounts := accounts d; sessions := m; requestCount := requestCount d |}.

(** ** Requests and outcomes *)

Module Req.
(** The fields the handlers destructure from [req.body]. *)
Record Body := {
  userId : option string;
  name : option string;
  balance : option Z;
  toUserId : option string;
  amount : option Z
}.
End Req.

Inductive Route :=
| POST_register | POST_login | GET_accounts | GET_balance
| POST_transfer | POST_loan | GET_statement | GET_metrics
| unmatched.

#[global] Instance Route_eq_dec : EqDecision Route.
Proof. solve_decision. Defined.

(** What one call of [Math.random()] yields, as the handlers consume it:
    [Math.random().toString(36).slice(2)] in /login and
    [Math.random() < 0.1] in /balance. *)
Record Draw := { base36 : string; lt_0_1 : bool }.

Record Request := {
  route : Route;
  token : option string;   (* req.headers.token *)
  body : Req.Body;
  draw : Draw
}.

(** The [error_type] labels of [errorCounter]. *)
Inductive ErrorType :=
| rate_limit | unauthorized | bad_request | conflict
| not_found | insufficient_funds | server_error.

(** JSON bodies of the successful replies. *)
Inductive Json :=
| registered_json (userId : string)
| token_json (token : string)
| accounts_json (l : list (string * string))
| balance_json (userId : string) (balance : Z)
| transfer_json (amount : Z)
| loan_json (amount : Z)
| statement_json (userId : string) (transactions : list Transaction)
| metrics_json
| no_route_json.

(** What a request ends in: a reply, a failure reply together with the
    [error_type] it was counted under, or (only for the async /transfer
    handler) a rejected promise with no reply written by the handler. *)
Inductive Outcome :=
| Replied (status : Z) (json : Json)
| Failed (error_type : ErrorType) (status : Z) (error : string)
| Rejected.

(** ** JS helpers on absent-or-present values *)

(** [!!v] for an identifier field. *)
Definition truthy (v : option string) : bool :=
  match v with
  | Some s => negb (String.eqb s "")
  | None => false
  end.

(** [!!v] for a numeric field. *)
Definition nonzero (v : option Z) : bool :=
  match v with
  | Some n => negb (n =? 0)
  | None => false
  end.

(** [v <= n]; a comparison with [undefined] is false. *)
Definition le_num (v : option Z) (n : Z) : bool :=
  match v with
  | Some m => m <=? n
  | None => false
  end.

(** [v > n]. *)
Definition gt_num (v : option Z) (n : Z) : bool :=
  match v with
  | Some m => n <? m
  | None => false
  end.

(** [m.has(k)]. *)
Definition has {V} (m : gmap string V) (k : option string) : bool :=
  match k with
  | Some s => match m !! s with Some _ => true | None => false end
  | None => false
  end.

(** [acc.balance += d]. *)
Definition add_balance (d : Z) (acc : Account) : Account :=
  {| name := name acc; balance := balance acc + d;
     transactions := transactions acc |}.

(** [acc.transactions.push(tx)]. *)
Definition push (tx : Transaction) (acc : Account) : Account :=
  {| name := name acc; balance := balance acc;
     transactions := transactions acc ++ [tx] |}.

(** The error-handling middleware at the end of the chain. *)
Definition error_handler : Outcome :=
  Failed server_error 500 "Internal server error".

(** ** Middleware *)

(** The [authenticate] middleware: the failure reply, or [req.userId]. *)
Definition authenticate (req : Request) (d : Db) : Outcome + string :=
  if negb (truthy (token req)) || negb (has (sessions d) (token req)) then
    inl (Failed unauthorized 401 "Invalid or missing token")
  else
    match sessions d !! default "" (token req) with
    | Some userId => inr userId
    | None => inl (Failed unauthorized 401 "Invalid or missing token")
    end.

(** [requestCount++]. *)
Definition count_request (d : Db) : Db :=
  {| accounts := accounts d; sessions := sessions d;
     requestCount := requestCount d + 1 |}.

(** The test [requestCount % 10 === 0] of the rate-limit middleware. *)
Definition limited (d : Db) : bool := Z.rem (requestCount d) 10 =? 0.

(** ** Route handlers *)

Definition post_register (req : Request) (d : Db) : Outcome * Db :=
  let userId := Req.userId (body req) in
  let nm := Req.name (body req) in
  let bal := default 1000 (Req.balance (body req)) in
  if negb (truthy userId) || negb (truthy nm) then
    (Failed bad_request 400 "Missing userId or name", d)
  else if has (accounts d) userId then
    (Failed conflict 409 "User already exists", d)
  else
    let k := default "" userId in
    (Replied 201 (registered_json k),
     set_accounts
       (<[k := {| name := default "" nm; balance := bal;
                  transactions := [] |}]> (accounts d)) d).

Definition post_login (req : Request) (d : Db) : Outcome * Db :=
  let userId := Req.userId (body req) in
  if negb (has (accounts d) userId) then
    (Failed not_found 404 "User not found", d)
  else
    let tok := String.append "token_" (base36 (draw req)) in
    (Replied 200 (token_json tok),
     set_sessions (<[tok := default "" userId]> (sessions d)) d).

(** The listing is in key order here; the JS [Map] lists in insertion
    order. *)
Definition get_accounts (userId : string) (req : Request) (d : Db)
  : Outcome * Db :=
  (Replied 200
     (accounts_json
        ((λ e : string * Account, (e.1, name e.2)) <$> map_to_list (accounts d))),
   d).

Definition get_balance (userId : string) (req : Request) (d : Db)
  : Outcome * Db :=
  match accounts d !! userId with
  | None => (error_handler, d)
  | Some account =>
      if lt_0_1 (draw req) then (error_handler, d)
      else (Replied 200 (balance_json userId (balance account)), d)
  end.

(** A transfer suspended at its [await]: the account held in [sender]
    (by its key, which is [req.userId]), [toUserId] and [amount]. *)
Record Pending := {
  sender : string;
  toUserId : string;
  amount : Z
}.

(** /transfer up to the [await]: the checks. *)
Definition transfer_validate (userId : string) (req : Request) (d : Db)
  : Outcome + Pending :=
  let to := Req.toUserId (body req) in
  let amt := Req.amount (body req) in
  if negb (truthy to) || negb (nonzero amt) || le_num amt 0 then
    inl (Failed bad_request 400 "Invalid toUserId or amount")
  else if negb (has (accounts d) to) then
    inl (Failed not_found 404 "Recipient not found")
  else
    match accounts d !! userId with
    | None => inl Rejected
    | Some s =>
        if balance s <? default 0 amt then
          inl (Failed insufficient_funds 400 "Insufficient funds")
        else
          inr {| sender := userId; toUserId := default "" to;
                 amount := default 0 amt |}
    end.

(** /transfer after the [await]: the four mutations and the reply. *)
Definition transfer_commit (p : Pending) (d : Db) : Outcome * Db :=
  match accounts d !! sender p with
  | None => (Rejected, d)
  | Some _ =>
      let a1 := alter (add_balance (- amount p)) (sender p) (accounts d) in
      let a2 := alter (push (debit (amount p) (toUserId p))) (sender p) a1 in
      match a2 !! toUserId p with
      | None => (Rejected, set_accounts a2 d)
      | Some _ =>
          let a3 := alter (add_balance (amount p)) (toUserId p) a2 in
          let a4 := alter (push (credit (amount p) (sender p))) (toUserId p) a3 in
          (Replied 200 (transfer_json (amount p)), set_accounts a4 d)
      end
  end.

(** /transfer run without anything else in between: checks, then commit. *)
Definition post_transfer (userId : string) (req : Request) (d : Db)
  : Outcome * Db :=
  match transfer_validate userId req d with
  | inl out => (out, d)
  | inr p => transfer_commit p d
  end.

Definition post_loan (userId : string) (req : Request) (d : Db)
  : Outcome * Db :=
  let amt := Req.amount (body req) in
  if negb (nonzero amt) || le_num amt 0 || gt_num amt 10000 then
    (Failed bad_request 400 "Invalid loan amount (max 10000)", d)
  else
    match accounts d !! userId with
    | None => (error_handler, d)
    | Some _ =>
        let a := default 0 amt in
        let a1 := alter (add_balance a) userId (accounts d) in
        let a2 := alter (push (loan a)) userId a1 in
        (Replied 200 (loan_json a), set_accounts a2 d)
    end.

Definition get_statement (userId : string) (req : Request) (d : Db)
  : Outcome * Db :=
  match accounts d !! userId with
  | None => (error_handler, d)
  | Some account =>
      (Replied 200 (statement_json userId (transactions account)), d)
  end.

(** A route registered as [app.METHOD(path, authenticate, handler)]. *)
Definition authenticated (h : string → Request → Db → Outcome * Db)
    (req : Request) (d : Db) : Outcome * Db :=
  match authenticate req d with
  | inl out => (out, d)
  | inr userId => h userId req d
  end.

(** The router behind the rate-limit middleware. *)
Definition dispatch (req : Request) (d : Db) : Outcome * Db :=
  match route req with
  | POST_register => post_register req d
  | POST_login => post_login req d
  | GET_accounts => authenticated get_accounts req d
  | GET_balance => authenticated get_balance req d
  | POST_transfer => authenticated post_transfer req d
  | POST_loan => authenticated post_loan req d
  | GET_statement => authenticated get_statement req d
  | GET_metrics => (Replied 200 metrics_json, d)
  | unmatched => (Replied 404 no_route_json, d)
  end.

(** One request handled from arrival to reply with nothing in between. *)
Definition handle (req : Request) (d : Db) : Outcome * Db :=
  let d1 := count_request d in
  if limited d1 then (Failed rate_limit 429 "Too many requests", d1)
  else dispatch req d1.

(** Requests handled one after the other. *)
Fixpoint serve (reqs : list Request) (d : Db) : list Outcome * Db :=
  match reqs with
  | [] => ([], d)
  | req :: rest =>
      let '(out, d1) := handle req d in
      let '(outs, d2) := serve rest d1 in
      (out :: outs, d2)
  end.

(** ** The event loop: transfers suspended at their [await] *)

(** The database together with the transfers waiting for their 500 ms
    timer, oldest first (timers of equal delay fire in creation order). *)
Record Loop := {
  db : Db;
  timers : list Pending
}.

Definition boot : Loop := {| db := init; timers := [] |}.

(** A turn of the loop: a request arrives and runs up to its reply or up
    to its [await], or the oldest timer fires and its transfer commits. *)
Inductive Event :=
| Arrive (req : Request)
| Timeout.

Definition arrive (req : Request) (l : Loop) : option Outcome * Loop :=
  let d1 := count_request (db l) in
  if limited d1 then
    (Some (Failed rate_limit 429 "Too many requests"),
     {| db := d1; timers := timers l |})
  else
    match route req with
    | POST_transfer =>
        match authenticate req d1 with
        | inl out => (Some out, {| db := d1; timers := timers l |})
        | inr userId =>
            match transfer_validate userId req d1 with
            | inl out => (Some out, {| db := d1; timers := timers l |})
            | inr p => (None, {| db := d1; timers := timers l ++ [p] |})
            end
        end
    | _ =>
        let '(out, d2) := dispatch req d1 in
        (Some out, {| db := d2; timers := timers l |})
    end.

Definition timeout (l : Loop) : option Outcome * Loop :=
  match timers l with
  | [] => (None, l)
  | p :: rest =>
      let '(out, d1) := transfer_commit p (db l) in
      (Some out, {| db := d1; timers := rest |})
  end.

Definition turn (e : Event) (l : Loop) : option Outcome * Loop :=
  match e with
  | Arrive req => arrive req l
  | Timeout => timeout l
  end.

Fixpoint run (es : list Event) (l : Loop) : list (option Outcome) * Loop :=
  match es with
  | [] => ([], l)
  | e :: rest =>
      let '(out, l1) := turn e l in
      let '(outs, l2) := run rest l1 in
      (out :: outs, l2)
  end.

(** The states the server can be in. *)
Definition reachable (d : Db) : Prop :=
  ∃ es, db (run es boot).2 = d.

(** ** Specification-side notions *)

(** The sum of all account balances. *)
Definition total (m : gmap string Account) : Z :=
  map_fold (λ _ acc s, balance acc + s) 0 m.

(** The effect on the account stored under [k] of a transfer of [a] from
    [A] to [B]: [a] taken off [A]'s balance, [a] put on [B]'s, a debit
    appended to [A]'s history and a credit to [B]'s. *)
Definition settle (A B : string) (a : Z) (k : string) (acc : Account)
  : Account :=
  {| name := name acc;
     balance := balance acc - (if decide (k = A) then a else 0)
                            + (if decide (k = B) then a else 0);
     transactions := transactions acc
                     ++ (if decide (k = A) then [debit a B] else [])
                     ++ (if decide (k = B) then [credit a A] else []) |}.

(** What holds of every state of the server: no account is stored under
    the empty identifier, and every session names a stored account. *)
Definition consistent (d : Db) : Prop :=
  accounts d !! "" = None ∧
  ∀ tok u, sessions d !! tok = Some u → is_Some (accounts d !! u).

(** A suspended transfer whose two accounts are stored. *)
Definition pending_ok (d : Db) (p : Pending) : Prop :=
  is_Some (accounts d !! sender p) ∧ is_Some (accounts d !! toUserId p).


(** ** Sessions, invariants *)

(** The account a request's [token] header resolves to, if any. *)
Definition resolve (req : Request) (d : Db) : option string :=
  match token req with
  | Some tok => if decide (tok = "") then None else sessions d !! tok
  | None => None
  end.

(** The same sessions, the same counter and the same account identifiers. *)
Definition same_ids (d d' : Db) : Prop :=
  sessions d' = sessions d ∧ requestCount d' = requestCount d ∧
  ∀ k, is_Some (accounts d' !! k) ↔ is_Some (accounts d !! k).

(** Accounts are never removed. *)
Definition grows (d d' : Db) : Prop :=
  ∀ k, is_Some (accounts d !! k) → is_Some (accounts d' !! k).

(** The invariant of the loop: the store is consistent and every suspended
    transfer still finds both of its accounts. *)
Definition loop_ok (l : Loop) : Prop :=
  consistent (db l) ∧ Forall (pending_ok (db l)) (timers l).




(** The balance of the account stored under [k] (0 when there is none). *)
Definition balance_of (d : Db) (k : string) : Z :=
  from_option balance 0 (accounts d !! k).

(** ** One transfer, turn by turn *)










(** ** Two transfers in opposite directions *)






(** ** Clients used in the examples *)

Definition no_body : Req.Body :=
  {| Req.userId := None; Req.name := None; Req.balance := None;
     Req.toUserId := None; Req.amount := None |}.

Definition a_draw (r : string) : Draw := {| base36 := r; lt_0_1 := false |}.

Definition register_req (u n : option string) (b : option Z) : Request :=
  {| route := POST_register; token := None;
     body := {| Req.userId := u; Req.name := n; Req.balance := b;
                Req.toUserId := None; Req.amount := None |};
     draw := a_draw "" |}.

Definition login_req (u : string) (r : string) : Request :=
  {| route := POST_login; token := None;
     body := {| Req.userId := Some u; Req.name := None; Req.balance := None;
                Req.toUserId := None; Req.amount := None |};
     draw := a_draw r |}.

Definition transfer_req (tok to : string) (a : Z) : Request :=
  {| route := POST_transfer; token := Some tok;
     body := {| Req.userId := None; Req.name := None; Req.balance := None;
                Req.toUserId := Some to; Req.amount := Some a |};
     draw := a_draw "" |}.

Definition loan_req (tok : string) (a : Z) : Request :=
  {| route := POST_loan; token := Some tok;
     body := {| Req.userId := None; Req.name := None; Req.balance := None;
                Req.toUserId := None; Req.amount := Some a |};
     draw := a_draw "" |}.

Definition read_req (r : Route) (tok : string) : Request :=
  {| route := r; token := Some tok; body := no_body; draw := a_draw "" |}.

(** alice and bob registered with 1000 each, both logged in. *)
Definition two_clients : Db :=
  (serve [register_req (Some "alice") (Some "Alice") (Some 1000);
          register_req (Some "bob") (Some "Bob") None;
          login_req "alice" "k3a"; login_req "bob" "k3b"] init).2.

(** ** Accounting notions *)

#[global] Instance Transaction_eq_dec : EqDecision Transaction.
Proof. solve_decision. Defined.

(** The status each [error_type] is replied with. *)
Definition status_of (e : ErrorType) : Z :=
  match e with
  | rate_limit => 429
  | unauthorized => 401
  | bad_request => 400
  | conflict => 409
  | not_found => 404
  | insufficient_funds => 400
  | server_error => 500
  end.

(** The signed amount a transaction stands for in its account. *)
Definition net_of (tx : Transaction) : Z :=
  match tx with
  | debit a _ => - a
  | credit a _ => a
  | loan a => a
  end.

(** The signed sum of a history. *)
Definition net (txs : list Transaction) : Z :=
  foldr (λ tx s, net_of tx + s) 0 txs.


(** The history of the account stored under [k] (empty when there is
    none). *)
Definition history_of (d : Db) (k : string) : list Transaction :=
  from_option transactions [] (accounts d !! k).

(** How many times [tx] occurs in a history. *)
Definition occurrences (tx : Transaction) (txs : list Transaction) : nat :=
  length (filter (λ x, x = tx) txs).




(** [acc'] is [acc] some transactions later: the same name, the history
    of [acc] followed by the new transactions, and a balance that differs
    by exactly the signed sum of the new ones. *)
Definition extends (acc acc' : Account) : Prop :=
  name acc' = name acc ∧
  ∃ new, transactions acc' = transactions acc ++ new ∧
         balance acc' = balance acc + net new.

(** Every account of [m] is still in [m'], some transactions later. *)
Definition ledger_extends (m m' : gmap string Account) : Prop :=
  ∀ k acc, m !! k = Some acc → ∃ acc', m' !! k = Some acc' ∧ extends acc acc'.

(** Double entry: [A]'s history holds a debit of [a] to [B] as many times
    as [B]'s history holds a credit of [a] from [A]. *)
Definition paired (d : Db) : Prop :=
  ∀ A B a, occurrences (debit a B) (history_of d A)
           = occurrences (credit a A) (history_of d B).

(** * Properties *)

(** ** Basic facts *)

Lemma truthy_Some v : truthy v = true ↔ ∃ s, v = Some s ∧ s ≠ "".
Proof.
  destruct v as [s|]; simpl.
  - rewrite negb_true_iff, String.eqb_neq. naive_solver.
  - naive_solver.
Qed.

Lemma has_Some {V} (m : gmap string V) k :
  has m k = true ↔ ∃ s, k = Some s ∧ is_Some (m !! s).
Proof.
  destruct k as [s|]; simpl; [|naive_solver].
  destruct (m !! s) eqn:E; split; try naive_solver.
  intros (? & [= <-] & [? ?]). congruence.
Qed.

Lemma total_insert_fresh m k acc :
  m !! k = None → total (<[k := acc]> m) = balance acc + total m.
Proof.
  intros E. unfold total. rewrite map_fold_insert_L; [done| |done].
  intros. lia.
Qed.



(** ** The transfer: checks and commit *)

Lemma transfer_validate_inr userId req d p :
  transfer_validate userId req d = inr p →
  sender p = userId ∧
  Req.toUserId (body req) = Some (toUserId p) ∧ toUserId p ≠ "" ∧
  Req.amount (body req) = Some (amount p) ∧ 0 < amount p ∧
  is_Some (accounts d !! toUserId p) ∧
  ∃ s, accounts d !! userId = Some s ∧ amount p ≤ balance s.
Proof.
  unfold transfer_validate.
  destruct (truthy _) eqn:Et; simpl; [|done].
  apply truthy_Some in Et as (to & Eto & Hne). rewrite Eto.
  destruct (Req.amount (body req)) as [a|]; simpl; [|done].
  destruct (a =? 0) eqn:E0; simpl; [done|].
  destruct (a <=? 0) eqn:E1; simpl; [done|].
  destruct (accounts d !! to) eqn:Er; simpl; [|done].
  destruct (accounts d !! userId) as [s|] eqn:Es; [|done].
  destruct (balance s <? a) eqn:E2; [done|].
  intros [= <-]. simpl. rewrite Er.
  repeat split; eauto; try lia. exists s. split; [done|lia].
Qed.


Lemma settle_lookup (m : gmap string Account) A B a k :
  alter (push (credit a A)) B
    (alter (add_balance a) B
       (alter (push (debit a B)) A
          (alter (add_balance (- a)) A m))) !! k
  = settle A B a k <$> m !! k.
Proof.
  destruct (decide (A = k)) as [HA|HA]; destruct (decide (B = k)) as [HB|HB];
    subst;
    rewrite ?lookup_alter_eq, ?(lookup_alter_ne _ _ _ _ HA),
      ?(lookup_alter_ne _ _ _ _ HB), ?lookup_alter_eq,
      ?(lookup_alter_ne _ _ _ _ HA), ?lookup_alter_eq;
    match goal with |- context [m !! ?x] => destruct (m !! x) as [acc|] end;
    simpl; try done;
    destruct acc; unfold settle, push, add_balance; simpl;
    repeat case_decide; try congruence;
    f_equal; f_equal; try lia; by rewrite <- ?app_assoc, ?app_nil_r.
Qed.

Lemma transfer_commit_ok p d :
  pending_ok d p →
  ∃ d', transfer_commit p d = (Replied 200 (transfer_json (amount p)), d') ∧
        sessions d' = sessions d ∧ requestCount d' = requestCount d ∧
        ∀ k, accounts d' !! k
             = settle (sender p) (toUserId p) (amount p) k <$> accounts d !! k.
Proof.
  intros [[s Es] [r Er]]. unfold transfer_commit. rewrite Es.
  match goal with |- context [match ?x with _ => _ end] =>
    assert (is_Some x) as [r' Er'] end.
  { eapply lookup_alter_is_Some, lookup_alter_is_Some; eauto. }
  cbv zeta. rewrite Er'. eexists. split; [done|]. simpl.
  repeat split. intros k. apply settle_lookup.
Qed.




(** ** Sessions *)

Lemma authenticate_resolve req d :
  authenticate req d
  = match resolve req d with
    | Some u => inr u
    | None => inl (Failed unauthorized 401 "Invalid or missing token")
    end.
Proof.
  unfold authenticate, resolve.
  destruct (token req) as [tok|]; simpl; [|done].
  case_decide as Hne.
  - subst. done.
  - apply String.eqb_neq in Hne. rewrite Hne. simpl.
    destruct (sessions d !! tok); done.
Qed.

(** ** What the handlers leave alone *)

Ltac handler :=
  repeat match goal with
  | H : context [authenticate _ _] |- _ => rewrite authenticate_resolve in H
  | |- context [authenticate _ _] => rewrite authenticate_resolve
  end;
  repeat (case_match; simplify_eq/=); simplify_eq/=; try done.





(** ** Invariants of the store *)

Lemma same_ids_refl d : same_ids d d.
Proof. done. Qed.

Lemma same_ids_consistent d d' :
  same_ids d d' → consistent d → consistent d' ∧ grows d d'.
Proof.
  intros (Hs & _ & Hk) [H0 H1]. split; [split|].
  - apply eq_None_not_Some. rewrite Hk. by apply eq_None_not_Some.
  - intros tok u. rewrite Hs, Hk. apply H1.
  - intros k. by rewrite Hk.
Qed.

Lemma transfer_commit_same_ids p d out d' :
  transfer_commit p d = (out, d') → same_ids d d'.
Proof.
  unfold transfer_commit, same_ids. intros H.
  repeat (case_match; simplify_eq/=);
    (split; [done|split; [done|]]); intros ?;
    by rewrite ?lookup_alter_is_Some.
Qed.

Lemma post_transfer_same_ids u req d out d' :
  post_transfer u req d = (out, d') → same_ids d d'.
Proof.
  unfold post_transfer. case_match.
  - intros [= _ <-]. done.
  - apply transfer_commit_same_ids.
Qed.

Lemma post_loan_same_ids u req d out d' :
  post_loan u req d = (out, d') → same_ids d d'.
Proof.
  unfold post_loan, same_ids. intros H.
  repeat (case_match; simplify_eq/=);
    (split; [done|split; [done|]]); intros ?;
    by rewrite ?lookup_alter_is_Some.
Qed.

Lemma post_register_consistent req d out d' :
  post_register req d = (out, d') →
  consistent d → consistent d' ∧ grows d d'.
Proof.
  unfold post_register. intros H Hc.
  destruct (truthy (Req.userId (body req))) eqn:Eu; simpl in H;
    [|simplify_eq; by apply same_ids_consistent].
  apply truthy_Some in Eu as (u & Eu & Hne). rewrite Eu in H. simpl in H.
  repeat (case_match; simplify_eq/=); try by apply same_ids_consistent.
  destruct Hc as [Hc0 Hc1]. split; [split|]; simpl.
  - by rewrite lookup_insert_ne.
  - intros tok v Hv. rewrite lookup_insert_is_Some. apply Hc1 in Hv.
    destruct (decide (u = v)); eauto.
  - intros k Hk. simpl. rewrite lookup_insert_is_Some.
    destruct (decide (u = k)); eauto.
Qed.

Lemma post_login_consistent req d out d' :
  post_login req d = (out, d') →
  consistent d → consistent d' ∧ grows d d'.
Proof.
  unfold post_login. intros H Hc.
  destruct (has (accounts d) (Req.userId (body req))) eqn:Eu; simpl in H;
    [|simplify_eq; by apply same_ids_consistent].
  apply has_Some in Eu as (u & Eu & Hu). rewrite Eu in H. simplify_eq/=.
  destruct Hc as [Hc0 Hc1]. split; [split|]; simpl; try done.
  - intros tok v. rewrite lookup_insert_Some. naive_solver.
  - by intros k.
Qed.

Lemma authenticated_same_ids h req d out d' :
  (∀ u out d', h u req d = (out, d') → same_ids d d') →
  authenticated h req d = (out, d') → same_ids d d'.
Proof.
  intros Hh. unfold authenticated.
  destruct (authenticate req d) as [o|u]; [|by apply Hh].
  intros [= _ <-]. done.
Qed.

Lemma dispatch_consistent req d out d' :
  dispatch req d = (out, d') →
  consistent d → consistent d' ∧ grows d d'.
Proof.
  unfold dispatch. intros H Hc.
  destruct (route req);
    [ by eapply post_register_consistent
    | by eapply post_login_consistent
    | .. ];
    (eapply same_ids_consistent; [|done]);
    try (eapply authenticated_same_ids; [|done]; intros u o d1 Hh);
    eauto using post_transfer_same_ids, post_loan_same_ids;
    try (unfold get_accounts, get_balance, get_statement in Hh;
         repeat case_match; simplify_eq/=; apply same_ids_refl);
    simplify_eq; apply same_ids_refl.
Qed.

Lemma count_request_consistent d : consistent d → consistent (count_request d).
Proof. done. Qed.

Lemma handle_consistent req d :
  consistent d → consistent (handle req d).2.
Proof.
  intros Hc. unfold handle. case_match; [done|].
  destruct (dispatch req (count_request d)) eqn:E.
  by eapply dispatch_consistent in E as [? _];
    [|apply count_request_consistent].
Qed.

Lemma serve_consistent reqs d :
  consistent d → consistent (serve reqs d).2.
Proof.
  revert d. induction reqs as [|req rest IH]; intros d Hc; simpl; [done|].
  pose proof (handle_consistent req d Hc) as H1.
  destruct (handle req d) as [out d1]. simpl in H1.
  specialize (IH d1 H1). destruct (serve rest d1). done.
Qed.

Lemma pending_ok_grows d d' p : grows d d' → pending_ok d p → pending_ok d' p.
Proof. intros Hg [H1 H2]. split; by apply Hg. Qed.

Lemma init_consistent : consistent init.
Proof. split; [done|]. intros tok u. simpl. by rewrite lookup_empty. Qed.

Lemma turn_ok e l : loop_ok l → loop_ok (turn e l).2.
Proof.
  intros [Hc Hp]. destruct e as [req|]; simpl.
  - unfold arrive. apply count_request_consistent in Hc.
    assert (Forall (pending_ok (count_request (db l))) (timers l)) as Hp'
      by done.
    set (d1 := count_request (db l)) in *.
    assert (loop_ok {| db := d1; timers := timers l |}) as Hl1 by done.
    case_match; [apply Hl1|].
    assert (∀ out d2, dispatch req d1 = (out, d2) →
              loop_ok {| db := d2; timers := timers l |}) as Hd.
    { intros out d2 E. eapply dispatch_consistent in E as [? Hg]; [|done].
      split; [done|]. simpl. eapply Forall_impl; [done|].
      intros p. by apply pending_ok_grows. }
    destruct (route req);
      try (destruct (dispatch req d1) eqn:E; by eapply Hd).
    destruct (authenticate req d1) as [out|u]; [apply Hl1|].
    destruct (transfer_validate u req d1) as [out|p] eqn:Ev; [apply Hl1|].
    split; [done|]. simpl. apply Forall_app. split; [done|].
    apply Forall_singleton.
    apply transfer_validate_inr in Ev as (Hs & _ & _ & _ & _ & Hr & s & Es & _).
    split; [|done]. rewrite Hs. eauto.
  - unfold timeout. destruct (timers l) as [|p rest] eqn:Et.
    { split; [done|]. simpl. by rewrite Et. }
    destruct (transfer_commit p (db l)) as [out d1] eqn:E. simpl.
    apply transfer_commit_same_ids in E.
    eapply same_ids_consistent in E as [? Hg]; [|done].
    split; [done|]. simpl. apply Forall_cons in Hp as [_ Hp].
    eapply Forall_impl; [done|]. intros q. by apply pending_ok_grows.
Qed.

Lemma run_ok es l : loop_ok l → loop_ok (run es l).2.
Proof.
  revert l. induction es as [|e rest IH]; intros l Hl; simpl; [done|].
  pose proof (turn_ok e l Hl) as H1.
  destruct (turn e l) as [out l1]. simpl in H1.
  specialize (IH l1 H1). destruct (run rest l1). done.
Qed.

Lemma reachable_consistent d : reachable d → consistent d.
Proof.
  intros [es <-]. apply run_ok. split; [apply init_consistent|].
  apply Forall_nil_2.
Qed.


Lemma serve_cons req rest d :
  serve (req :: rest) d
  = ((handle req d).1 :: (serve rest (handle req d).2).1,
     (serve rest (handle req d).2).2).
Proof.
  simpl. destruct (handle req d) as [out d1]. simpl. by destruct (serve rest d1).
Qed.

(** Handling requests one at a time is one behaviour of the loop. *)
Lemma handle_as_turns req d :
  ∃ es, (run es {| db := d; timers := [] |}).2
        = {| db := (handle req d).2; timers := [] |}.
Proof.
  unfold handle.
  destruct (limited (count_request d)) eqn:El.
  { exists [Arrive req]. simpl. unfold arrive. simpl. by rewrite El. }
  destruct (decide (route req = POST_transfer)) as [Er|Er].
  - unfold dispatch. rewrite Er. unfold authenticated.
    destruct (authenticate req (count_request d)) as [out|u] eqn:Ea.
    { exists [Arrive req]. simpl. unfold arrive. simpl. by rewrite El, Er, Ea. }
    unfold post_transfer.
    destruct (transfer_validate u req (count_request d)) as [out|p] eqn:Ev.
    { exists [Arrive req]. simpl. unfold arrive. simpl.
      by rewrite El, Er, Ea, Ev. }
    exists [Arrive req; Timeout]. simpl. unfold arrive. simpl.
    rewrite El, Er, Ea, Ev. simpl. unfold timeout. simpl.
    by destruct (transfer_commit p (count_request d)).
  - exists [Arrive req]. simpl. unfold arrive. simpl. rewrite El.
    destruct (dispatch req (count_request d)) as [out d2].
    by destruct (route req).
Qed.

Lemma run_app es1 es2 l :
  (run (es1 ++ es2) l).2 = (run es2 (run es1 l).2).2.
Proof.
  revert l. induction es1 as [|e es1 IH]; intros l; simpl; [done|].
  destruct (turn e l) as [out l1]. specialize (IH l1).
  destruct (run (es1 ++ es2) l1), (run es1 l1). done.
Qed.

Lemma serve_as_turns reqs d :
  ∃ es, (run es {| db := d; timers := [] |}).2
        = {| db := (serve reqs d).2; timers := [] |}.
Proof.
  revert d. induction reqs as [|req rest IH]; intros d.
  - by exists [].
  - destruct (handle_as_turns req d) as [es1 H1].
    destruct (IH (handle req d).2) as [es2 H2].
    exists (es1 ++ es2). rewrite run_app, H1, H2, serve_cons. done.
Qed.

Lemma serve_reachable reqs : reachable (serve reqs init).2.
Proof.
  destruct (serve_as_turns reqs init) as [es H]. exists es.
  unfold boot. by rewrite H.
Qed.

(** ** Transfers: conservation, the committed unit, failures *)







Lemma two_clients_reachable : reachable two_clients.
Proof.
  exists [Arrive (register_req (Some "alice") (Some "Alice") (Some 1000));
          Arrive (register_req (Some "bob") (Some "Bob") None);
          Arrive (login_req "alice" "k3a"); Arrive (login_req "bob" "k3b")].
  reflexivity.
Defined.



(** The same scenario, evaluated. *)
Example alice_sends_bob_500 :
  let d' := (handle (transfer_req "token_k3a" "bob" 500) two_clients).2 in
  accounts d' !! "alice"
  = Some {| name := "Alice"; balance := 500;
            transactions := [debit 500 "bob"] |} ∧
  accounts d' !! "bob"
  = Some {| name := "Bob"; balance := 1500;
            transactions := [credit 500 "alice"] |} ∧
  (handle (transfer_req "token_k3a" "bob" 600) d').1
  = Failed insufficient_funds 400 "Insufficient funds".
Proof. repeat split. Qed.



(** ** Registration *)

(** C8, as first stated, fails: a second registration of "alice" that
    carries no name is answered 400 (bad request), not 409 (conflict). *)
Lemma register_again_without_name :
  accounts two_clients !! "alice"
  = Some {| name := "Alice"; balance := 1000; transactions := [] |} ∧
  post_register (register_req (Some "alice") None (Some 50)) two_clients
  = (Failed bad_request 400 "Missing userId or name", two_clients).
Proof. split; reflexivity. Qed.

(** C8, amended. When an account is stored under [u], a registration for
    [u] with a non-empty name fails with Conflict (409), one with a missing
    or empty name fails with BadRequest (400), and either way the whole
    store, and so the account's balance, name and history, is as before. *)
Theorem register_existing (req : Request) (d : Db) (u : string) :
  reachable d →
  Req.userId (body req) = Some u →
  is_Some (accounts d !! u) →
  ((∃ n, Req.name (body req) = Some n ∧ n ≠ "") →
   post_register req d = (Failed conflict 409 "User already exists", d)) ∧
  (Req.name (body req) = None ∨ Req.name (body req) = Some "" →
   post_register req d = (Failed bad_request 400 "Missing userId or name", d)).
Proof.
  intros Hr Hu [acc Hacc]. apply reachable_consistent in Hr as [H0 _].
  assert (u ≠ "") as Hne by (intros ->; congruence).
  apply String.eqb_neq in Hne.
  unfold post_register. rewrite Hu. simpl. rewrite Hne, Hacc. simpl. split.
  - intros (n & -> & Hn). simpl. apply String.eqb_neq in Hn. by rewrite Hn.
  - by intros [-> | ->].
Qed.

Lemma register_existing_witness :
  post_register (register_req (Some "alice") (Some "Alicia") (Some 5))
    two_clients
  = (Failed conflict 409 "User already exists", two_clients).
Proof.
  refine (proj1 (register_existing
                   (register_req (Some "alice") (Some "Alicia") (Some 5))
                   two_clients "alice" two_clients_reachable eq_refl _) _).
  - by eexists.
  - by exists "Alicia".
Defined.

(** ** Loans *)



(** ** The rate-limit middleware *)






(** Nine requests pass the limiter, the tenth is turned away, whatever it
    is, and the eleventh passes again. *)
Example tenth_request_rejected :
  let nine := replicate 9 (Arrive (read_req GET_metrics "")) in
  (run nine boot).1 = replicate 9 (Some (Replied 200 metrics_json)) ∧
  (run (nine ++ [Arrive (login_req "alice" "k3a")]) boot).1 !! 9%nat
  = Some (Some (Failed rate_limit 429 "Too many requests")) ∧
  (run (nine ++ [Arrive (login_req "alice" "k3a");
                 Arrive (read_req GET_metrics "")]) boot).1 !! 10%nat
  = Some (Some (Replied 200 metrics_json)).
Proof. repeat split. Qed.

(** ** Sessions and tokens *)

Lemma dispatch_sessions req d :
  route req ≠ POST_login →
  sessions (dispatch req d).2 = sessions d.
Proof.
  intros Hr. destruct (dispatch req d) as [out d2] eqn:H. simpl. revert H.
  unfold dispatch, authenticated, post_register,
    get_accounts, get_balance, post_loan, get_statement, post_transfer,
    transfer_commit.
  intros H. destruct (route req); handler.
Qed.

Lemma turn_sessions e l tok :
  (turn e l).1 ≠ Some (Replied 200 (token_json tok)) →
  sessions (db (turn e l).2) !! tok = sessions (db l) !! tok.
Proof.
  destruct e as [req|]; simpl.
  - unfold arrive. set (d1 := count_request (db l)).
    destruct (limited d1); [done|].
    destruct (decide (route req = POST_login)) as [Er|Er].
    + rewrite Er. unfold dispatch. rewrite Er. unfold post_login.
      destruct (has (accounts d1) _); simpl; [|done].
      intros Hne. rewrite lookup_insert_ne; [done|]. congruence.
    + pose proof (dispatch_sessions req d1 Er) as Hs. intros _.
      destruct (route req);
        try (destruct (dispatch req d1); simpl in *; by rewrite Hs).
      destruct (authenticate req d1); [done|].
      by destruct (transfer_validate _ req d1).
  - unfold timeout. destruct (timers l) as [|p rest]; [done|].
    destruct (transfer_commit p (db l)) as [out d1] eqn:E. simpl.
    by apply transfer_commit_same_ids in E as (-> & _).
Qed.

Lemma run_sessions es l tok :
  Some (Replied 200 (token_json tok)) ∉ (run es l).1 →
  sessions (db (run es l).2) !! tok = sessions (db l) !! tok.
Proof.
  revert l. induction es as [|e rest IH]; intros l; simpl; [done|].
  pose proof (turn_sessions e l tok) as H1.
  destruct (turn e l) as [out l1]. specialize (IH l1).
  destruct (run rest l1) as [outs l2]. simpl in *.
  intros Hn. apply not_elem_of_cons in Hn as [Hne Hn].
  rewrite IH by done. apply H1. congruence.
Qed.

(** C7, as first stated, fails: alice holds the live token "token_k3a";
    a login of bob that draws the same string is issued that very token,
    and from then on alice's token resolves to bob. *)
Lemma login_reissues_live_token :
  sessions two_clients !! "token_k3a" = Some "alice" ∧
  (post_login (login_req "bob" "k3a") two_clients).1
  = Replied 200 (token_json "token_k3a") ∧
  sessions (post_login (login_req "bob" "k3a") two_clients).2 !! "token_k3a"
  = Some "bob".
Proof. repeat split. Qed.

(** C7, amended. A login for an existing account [u] issues the token
    made of "token_" and the string drawn, and binds it to [u], whatever
    it was bound to before (so the token is new among the live sessions
    only when that string was not drawn before). The binding of a token
    stays what it is through any history in which no login issues that
    token again. A token that was never issued fails with Unauthorized
    (401) in every operation behind [authenticate], which then leaves the
    store untouched. *)
Theorem login_binds_token :
  (∀ req d u,
     Req.userId (body req) = Some u → is_Some (accounts d !! u) →
     post_login req d
     = (Replied 200 (token_json ("token_" +:+ base36 (draw req))),
        set_sessions
          (<["token_" +:+ base36 (draw req) := u]> (sessions d)) d)) ∧
  (∀ es l tok,
     Some (Replied 200 (token_json tok)) ∉ (run es l).1 →
     sessions (db (run es l).2) !! tok = sessions (db l) !! tok) ∧
  (∀ es req tok h,
     token req = Some tok →
     Some (Replied 200 (token_json tok)) ∉ (run es boot).1 →
     authenticated h req (db (run es boot).2)
     = (Failed unauthorized 401 "Invalid or missing token",
        db (run es boot).2)).
Proof.
  split; [|split].
  - intros req d u Hu [acc Hacc]. unfold post_login.
    rewrite Hu. simpl. by rewrite Hacc.
  - apply run_sessions.
  - intros es req tok h Ht Hn. unfold authenticated.
    rewrite authenticate_resolve. unfold resolve. rewrite Ht.
    case_decide; [done|]. by rewrite (run_sessions es boot tok Hn).
Qed.

(** alice's token keeps resolving to alice while bob logs in with another
    draw and money moves; a made-up token is refused. *)
Lemma login_binds_token_witness :
  let es := [Arrive (login_req "bob" "k3c");
             Arrive (transfer_req "token_k3c" "alice" 10); Timeout] in
  let l := {| db := two_clients; timers := [] |} in
  sessions (db (run es l).2) !! "token_k3a" = Some "alice" ∧
  authenticated get_statement (read_req GET_statement "token_made_up")
    (db (run [Arrive (register_req (Some "alice") (Some "Alice") None);
              Arrive (login_req "alice" "k3a")] boot).2)
  = (Failed unauthorized 401 "Invalid or missing token",
     db (run [Arrive (register_req (Some "alice") (Some "Alice") None);
              Arrive (login_req "alice" "k3a")] boot).2).
Proof.
  split.
  - refine (eq_trans (proj1 (proj2 login_binds_token) _ _ "token_k3a" _) _);
      [|reflexivity].
    vm_compute. intros H. repeat (apply elem_of_cons in H as [H|H]; [done|]).
    by apply elem_of_nil in H.
  - apply (proj2 (proj2 login_binds_token) _ _ "token_made_up"); [done|].
    vm_compute. intros H. repeat (apply elem_of_cons in H as [H|H]; [done|]).
    by apply elem_of_nil in H.
Defined.

(** ** Balances below zero *)








(** What the amended statement leaves out: two transfers of 600 that both
    pass the balance check before either commits take 1200 out of an
    account holding 1000. *)
Example overlapping_transfers_overdraw :
  let es := [Arrive (transfer_req "token_k3a" "bob" 600);
             Arrive (transfer_req "token_k3a" "bob" 600);
             Timeout; Timeout] in
  (run es {| db := two_clients; timers := [] |}).1
  = [None; None; Some (Replied 200 (transfer_json 600));
     Some (Replied 200 (transfer_json 600))] ∧
  balance_of (db (run es {| db := two_clients; timers := [] |}).2) "alice"
  = -200.
Proof. split; reflexivity. Qed.

(** ** Two transfers in opposite directions, interleaved *)
















Section Opposite.
(** The store before the two requests, the two accounts, the amount,
    and the two requests: [reqA] moves [a] from [A] to [B], [reqB] moves
    [a] from [B] to [A]. *)
Variables (d : Db) (A B : string) (a : Z) (reqA reqB : Request).
Variables (sA sB : Account).
Hypothesis HAB : A ≠ B.
Hypothesis HA0 : A ≠ "".
Hypothesis HB0 : B ≠ "".
Hypothesis Hpos : 0 < a.
Hypothesis HsA : accounts d !! A = Some sA.
Hypothesis HsB : accounts d !! B = Some sB.
Hypothesis HrA : resolve reqA d = Some A.
Hypothesis HtA : Req.toUserId (body reqA) = Some B.
Hypothesis HaA : Req.amount (body reqA) = Some a.
Hypothesis HrB : resolve reqB d = Some B.
Hypothesis HtB : Req.toUserId (body reqB) = Some A.
Hypothesis HaB : Req.amount (body reqB) = Some a.












(** *** Every complete interleaving is one of the two serial orders *)












End Opposite.





(** * Further properties of the handlers *)

(** ** Registration and login *)

Lemma register_creates_effect req d u n :
  Req.userId (body req) = Some u → u ≠ "" →
  Req.name (body req) = Some n → n ≠ "" →
  accounts d !! u = None →
  accounts (post_register req d).2 !! u
  = Some {| name := n; balance := default 1000 (Req.balance (body req));
            transactions := [] |} ∧
  (post_register req d).1 = Replied 201 (registered_json u).
Proof.
  intros Hu Hne Hn Hnn Hfree. unfold post_register.
  rewrite Hu, Hn. simpl. rewrite Hfree.
  apply String.eqb_neq in Hne, Hnn. rewrite Hne, Hnn. simpl.
  by rewrite lookup_insert_eq.
Qed.

(** X1. A registration with a non-empty [userId] and [name] for an
    identifier not yet stored is answered 201 with that identifier; the
    new account has the given name, the given opening balance (1000 when
    the body has none) and an empty history; every other account and every
    session is as before, and the sum of all balances grows by exactly
    the opening balance. *)
Theorem register_creates (req : Request) (d : Db) (u n : string) :
  Req.userId (body req) = Some u → u ≠ "" →
  Req.name (body req) = Some n → n ≠ "" →
  accounts d !! u = None →
  let d' := (post_register req d).2 in
  let b := default 1000 (Req.balance (body req)) in
  (post_register req d).1 = Replied 201 (registered_json u) ∧
  accounts d' !! u = Some {| name := n; balance := b; transactions := [] |} ∧
  (∀ k, k ≠ u → accounts d' !! k = accounts d !! k) ∧
  sessions d' = sessions d ∧
  total (accounts d') = total (accounts d) + b.
Proof.
  intros Hu Hne Hn Hnn Hfree d' b. unfold d', post_register.
  rewrite Hu, Hn. simpl. rewrite Hfree.
  apply String.eqb_neq in Hne, Hnn. rewrite Hne, Hnn. simpl.
  split_and!; try done.
  - by rewrite lookup_insert_eq.
  - intros k Hk. by rewrite lookup_insert_ne.
  - rewrite total_insert_fresh by done. simpl. fold b. lia.
Qed.

Lemma register_creates_witness :
  let req := register_req (Some "carol") (Some "Carol") None in
  let d' := (post_register req two_clients).2 in
  (post_register req two_clients).1 = Replied 201 (registered_json "carol") ∧
  accounts d' !! "carol"
  = Some {| name := "Carol"; balance := 1000; transactions := [] |} ∧
  (∀ k, k ≠ "carol" → accounts d' !! k = accounts two_clients !! k) ∧
  sessions d' = sessions two_clients ∧
  total (accounts d') = total (accounts two_clients) + 1000.
Proof.
  exact (register_creates (register_req (Some "carol") (Some "Carol") None)
           two_clients "carol" "Carol" eq_refl ltac:(done) eq_refl
           ltac:(done) eq_refl).
Defined.



(** ** The read routes *)

(** X3. In any state of the server, /balance with a valid session
    replies with the session's account identifier and that account's
    current balance, unless the draw of [Math.random()] is below 0.1, in
    which case it is answered 500 by the error middleware; either way the
    store is left as it is. *)
Theorem balance_reports (req : Request) (d : Db) (u : string) :
  reachable d →
  resolve req d = Some u →
  ∃ acc, accounts d !! u = Some acc ∧
         authenticated get_balance req d
         = (if lt_0_1 (draw req)
            then Failed server_error 500 "Internal server error"
            else Replied 200 (balance_json u (balance acc)), d).
Proof.
  intros Hr Hu.
  assert (∃ tok, sessions d !! tok = Some u) as [tok Htok].
  { unfold resolve in Hu. destruct (token req) as [tok|]; [|done].
    case_decide; [done|]. eauto. }
  apply reachable_consistent in Hr as [_ H1].
  destruct (H1 tok u Htok) as [acc Hacc]. exists acc. split; [done|].
  unfold authenticated, get_balance. rewrite authenticate_resolve, Hu, Hacc.
  by destruct (lt_0_1 (draw req)).
Qed.

Lemma balance_reports_witness :
  authenticated get_balance (read_req GET_balance "token_k3a") two_clients
  = (Replied 200 (balance_json "alice" 1000), two_clients).
Proof.
  destruct (balance_reports (read_req GET_balance "token_k3a") two_clients
              "alice" two_clients_reachable eq_refl) as (acc & Hacc & H).
  injection Hacc as <-. exact H.
Defined.

(** X4. In any state of the server, /statement with a valid session
    replies with the session's account identifier and the whole history
    of that account, in the order the transactions were appended, and
    leaves the store as it is: asked again at once, it replies the same. *)
Theorem statement_reports (req : Request) (d : Db) (u : string) :
  reachable d →
  resolve req d = Some u →
  ∃ acc, accounts d !! u = Some acc ∧
         authenticated get_statement req d
         = (Replied 200 (statement_json u (transactions acc)), d) ∧
         authenticated get_statement req
           (authenticated get_statement req d).2
         = authenticated get_statement req d.
Proof.
  intros Hr Hu.
  assert (∃ tok, sessions d !! tok = Some u) as [tok Htok].
  { unfold resolve in Hu. destruct (token req) as [tok|]; [|done].
    case_decide; [done|]. eauto. }
  apply reachable_consistent in Hr as [_ H1].
  destruct (H1 tok u Htok) as [acc Hacc]. exists acc. split; [done|].
  assert (authenticated get_statement req d
          = (Replied 200 (statement_json u (transactions acc)), d)) as E.
  { unfold authenticated, get_statement.
    by rewrite authenticate_resolve, Hu, Hacc. }
  by rewrite !E.
Qed.

Lemma statement_reports_witness :
  let d := (handle (transfer_req "token_k3a" "bob" 500) two_clients).2 in
  authenticated get_statement (read_req GET_statement "token_k3b") d
  = (Replied 200 (statement_json "bob" [credit 500 "alice"]), d).
Proof.
  intros d.
  assert (reachable d) as Hr.
  { exists [Arrive (register_req (Some "alice") (Some "Alice") (Some 1000));
            Arrive (register_req (Some "bob") (Some "Bob") None);
            Arrive (login_req "alice" "k3a"); Arrive (login_req "bob" "k3b");
            Arrive (transfer_req "token_k3a" "bob" 500); Timeout].
    reflexivity. }
  destruct (statement_reports (read_req GET_statement "token_k3b") d "bob"
              Hr eq_refl) as (acc & Hacc & H & _).
  injection Hacc as <-. exact H.
Defined.

(** X5. /accounts with a valid session lists every stored account once,
    by identifier and name and nothing else: a pair is listed exactly when
    an account of that name is stored under that identifier, no identifier
    is listed twice, and the store is left as it is. *)
Theorem accounts_lists (req : Request) (d : Db) (u : string) :
  resolve req d = Some u →
  ∃ l, authenticated get_accounts req d = (Replied 200 (accounts_json l), d) ∧
       (∀ id nm, (id, nm) ∈ l ↔
                 ∃ acc, accounts d !! id = Some acc ∧ name acc = nm) ∧
       NoDup l.*1 ∧
       length l = size (accounts d).
Proof.
  intros Hu. unfold authenticated, get_accounts.
  rewrite authenticate_resolve, Hu. eexists. split; [done|]. split_and!.
  - intros id nm. rewrite list_elem_of_fmap. split.
    + intros ([k acc] & [= -> ->] & Hin). simpl.
      apply elem_of_map_to_list in Hin. eauto.
    + intros (acc & Hacc & <-). exists (id, acc). split; [done|].
      by apply elem_of_map_to_list.
  - rewrite <- list_fmap_compose.
    rewrite (list_fmap_ext _ fst (map_to_list (accounts d)))
      by by intros ? [].
    apply NoDup_fst_map_to_list.
  - by rewrite length_fmap, length_map_to_list.
Qed.

Lemma accounts_lists_witness :
  ∃ l, authenticated get_accounts (read_req GET_accounts "token_k3b")
         two_clients
       = (Replied 200 (accounts_json l), two_clients) ∧
       (∀ id nm, (id, nm) ∈ l ↔
                 ∃ acc, accounts two_clients !! id = Some acc ∧
                        name acc = nm) ∧
       NoDup l.*1 ∧
       length l = size (accounts two_clients).
Proof.
  exact (accounts_lists (read_req GET_accounts "token_k3b") two_clients "bob"
           eq_refl).
Defined.

(** ** Failures *)

Lemma dispatch_failed req d e st msg d' :
  dispatch req d = (Failed e st msg, d') → d' = d ∧ st = status_of e.
Proof.
  unfold dispatch, authenticated, post_register, post_login, get_accounts,
    get_balance, post_loan, get_statement, post_transfer, transfer_validate,
    transfer_commit, error_handler.
  intros H. destruct (route req); handler.
Qed.

Lemma turn_failed ev l e st msg l' :
  turn ev l = (Some (Failed e st msg), l') →
  (∃ req, ev = Arrive req) ∧
  l' = {| db := count_request (db l); timers := timers l |} ∧
  st = status_of e.
Proof.
  destruct ev as [req|]; simpl.
  - unfold arrive. set (d1 := count_request (db l)). intros H.
    split; [by eexists|].
    destruct (limited d1); [by simplify_eq|].
    assert (∀ o d2, dispatch req d1 = (o, d2) →
              (Some o, {| db := d2; timers := timers l |})
              = (Some (Failed e st msg), l') →
              l' = {| db := d1; timers := timers l |} ∧ st = status_of e)
      as Hd.
    { intros o d2 E [= -> <-]. by apply dispatch_failed in E as [-> ->]. }
    destruct (route req);
      try (destruct (dispatch req d1) as [o d2] eqn:E; by eapply Hd).
    revert H. rewrite authenticate_resolve.
    destruct (resolve req d1); [|by intros [= <- <- <- <-]].
    unfold transfer_validate. intros H. handler.
  - unfold timeout. destruct (timers l) as [|p rest]; [done|].
    unfold transfer_commit. intros H. handler.
Qed.

(** X6. A request that is answered with a failure, whatever its route,
    changes nothing but the request counter: accounts, sessions and the
    suspended transfers are as before; and a timer that fires never
    produces a failure reply. *)
Theorem failure_changes_nothing (ev : Event) (l l' : Loop) (e : ErrorType)
    (st : Z) (msg : string) :
  turn ev l = (Some (Failed e st msg), l') →
  (∃ req, ev = Arrive req) ∧
  accounts (db l') = accounts (db l) ∧
  sessions (db l') = sessions (db l) ∧
  timers l' = timers l ∧
  requestCount (db l') = requestCount (db l) + 1.
Proof.
  intros H. apply turn_failed in H as (Hreq & -> & _). by split_and!.
Qed.

Lemma failure_changes_nothing_witness :
  let l := {| db := two_clients; timers := [] |} in
  let l' := (turn (Arrive (transfer_req "token_k3a" "bob" 5000)) l).2 in
  (∃ req, Arrive (transfer_req "token_k3a" "bob" 5000) = Arrive req) ∧
  accounts (db l') = accounts (db l) ∧
  sessions (db l') = sessions (db l) ∧
  timers l' = timers l ∧
  requestCount (db l') = requestCount (db l) + 1.
Proof.
  exact (failure_changes_nothing
           (Arrive (transfer_req "token_k3a" "bob" 5000))
           {| db := two_clients; timers := [] |} _
           insufficient_funds 400 "Insufficient funds" eq_refl).
Defined.

(** X7. Every failure reply carries the status of its error type:
    429 for rate_limit, 401 for unauthorized, 400 for bad_request and for
    insufficient_funds, 409 for conflict, 404 for not_found, 500 for
    server_error. *)
Theorem failure_status (ev : Event) (l l' : Loop) (e : ErrorType) (st : Z)
    (msg : string) :
  turn ev l = (Some (Failed e st msg), l') → st = status_of e.
Proof.
  intros H. by apply turn_failed in H as (_ & _ & ->).
Qed.

Lemma failure_status_witness : 409 = status_of conflict.
Proof.
  exact (failure_status
           (Arrive (register_req (Some "alice") (Some "Al") None))
           {| db := two_clients; timers := [] |} _
           conflict 409 "User already exists" eq_refl).
Defined.

(** ** Histories *)

Lemma net_app l1 l2 : net (l1 ++ l2) = net l1 + net l2.
Proof.
  unfold net. induction l1 as [|tx l1 IH]; simpl; [done|]. rewrite IH. lia.
Qed.

Lemma extends_refl acc : extends acc acc.
Proof.
  split; [done|]. exists []. rewrite app_nil_r. simpl. split; [done|lia].
Qed.

Lemma extends_trans acc1 acc2 acc3 :
  extends acc1 acc2 → extends acc2 acc3 → extends acc1 acc3.
Proof.
  intros [Hn1 (n1 & Ht1 & Hb1)] [Hn2 (n2 & Ht2 & Hb2)].
  split; [congruence|]. exists (n1 ++ n2).
  rewrite Ht2, Ht1, Hb2, Hb1, net_app, app_assoc. split; [done|lia].
Qed.

Lemma ledger_extends_refl m : ledger_extends m m.
Proof. intros k acc H. eauto using extends_refl. Qed.

Lemma ledger_extends_trans m1 m2 m3 :
  ledger_extends m1 m2 → ledger_extends m2 m3 → ledger_extends m1 m3.
Proof.
  intros H1 H2 k acc Hk.
  destruct (H1 k acc Hk) as (acc2 & Hk2 & E1).
  destruct (H2 k acc2 Hk2) as (acc3 & Hk3 & E2).
  eauto using extends_trans.
Qed.

(** A balance update followed by the push of the transaction that
    records it. *)
Lemma booked_extends m k x tx :
  net_of tx = x →
  ledger_extends m (alter (push tx) k (alter (add_balance x) k m)).
Proof.
  intros Hx j acc Hj. destruct (decide (k = j)) as [<-|Hne].
  - rewrite !lookup_alter_eq, Hj. simpl. eexists. split; [done|].
    split; [done|]. exists [tx]. simpl. split; [done|]. lia.
  - rewrite !lookup_alter_ne, Hj by done. eauto using extends_refl.
Qed.

Lemma insert_fresh_extends m k acc :
  m !! k = None → ledger_extends m (<[k := acc]> m).
Proof.
  intros Hk j a Hj. rewrite lookup_insert_ne by congruence.
  eauto using extends_refl.
Qed.

Lemma transfer_commit_extends p d :
  ledger_extends (accounts d) (accounts (transfer_commit p d).2).
Proof.
  unfold transfer_commit.
  destruct (accounts d !! sender p); [|apply ledger_extends_refl].
  cbv zeta. case_match; simpl.
  - eapply ledger_extends_trans; apply booked_extends; simpl; lia.
  - apply booked_extends. simpl. lia.
Qed.

Lemma dispatch_extends req d :
  ledger_extends (accounts d) (accounts (dispatch req d).2).
Proof.
  unfold dispatch, authenticated.
  destruct (route req);
    try (destruct (authenticate req d) as [o|u];
         [apply ledger_extends_refl|]);
    try apply ledger_extends_refl.
  - unfold post_register.
    destruct (truthy (Req.userId (body req))) eqn:Eu; simpl;
      [|apply ledger_extends_refl].
    apply truthy_Some in Eu as (k & -> & _).
    destruct (negb (truthy _)); simpl; [apply ledger_extends_refl|].
    destruct (accounts d !! k) eqn:Ek; [apply ledger_extends_refl|].
    simpl. by apply insert_fresh_extends.
  - unfold post_login. destruct (negb _); apply ledger_extends_refl.
  - unfold get_balance. repeat case_match; apply ledger_extends_refl.
  - unfold post_transfer. case_match; [apply ledger_extends_refl|].
    apply transfer_commit_extends.
  - unfold post_loan. repeat case_match; try apply ledger_extends_refl.
    simpl. by apply booked_extends.
  - unfold get_statement. repeat case_match; apply ledger_extends_refl.
Qed.

Lemma turn_extends ev l :
  ledger_extends (accounts (db l)) (accounts (db (turn ev l).2)).
Proof.
  destruct ev as [req|]; simpl.
  - unfold arrive. set (d1 := count_request (db l)).
    destruct (limited d1); [apply ledger_extends_refl|].
    pose proof (dispatch_extends req d1) as Hd.
    destruct (route req);
      try (destruct (dispatch req d1); exact Hd).
    destruct (authenticate req d1); [apply ledger_extends_refl|].
    destruct (transfer_validate _ req d1); apply ledger_extends_refl.
  - unfold timeout. destruct (timers l) as [|p rest];
      [apply ledger_extends_refl|].
    pose proof (transfer_commit_extends p (db l)) as Hc.
    by destruct (transfer_commit p (db l)).
Qed.

Lemma run_extends es l :
  ledger_extends (accounts (db l)) (accounts (db (run es l).2)).
Proof.
  revert l. induction es as [|ev rest IH]; intros l; simpl;
    [apply ledger_extends_refl|].
  pose proof (turn_extends ev l) as H1.
  destruct (turn ev l) as [out l1]. specialize (IH l1).
  destruct (run rest l1) as [outs l2]. simpl in *.
  by eapply ledger_extends_trans.
Qed.

(** X8. Accounts are never removed or renamed, and histories are
    append-only: through any history of the loop, an account that is
    stored stays stored under the same identifier with the same name, and
    its earlier history is a prefix of its later one. *)
Theorem history_append_only (es : list Event) (l : Loop) (k : string)
    (acc : Account) :
  accounts (db l) !! k = Some acc →
  ∃ acc', accounts (db (run es l).2) !! k = Some acc' ∧
          name acc' = name acc ∧
          transactions acc `prefix_of` transactions acc'.
Proof.
  intros Hk. destruct (run_extends es l k acc Hk)
    as (acc' & Hk' & Hn & new & Ht & _).
  exists acc'. split_and!; [done|done|]. rewrite Ht. by apply prefix_app_r.
Qed.

Lemma history_append_only_witness :
  let es := [Arrive (transfer_req "token_k3a" "bob" 500);
             Arrive (loan_req "token_k3a" 70); Timeout] in
  ∃ acc', accounts (db (run es {| db := two_clients; timers := [] |}).2)
            !! "alice" = Some acc' ∧
          name acc' = "Alice" ∧
          [] `prefix_of` transactions acc'.
Proof.
  exact (history_append_only
           [Arrive (transfer_req "token_k3a" "bob" 500);
            Arrive (loan_req "token_k3a" 70); Timeout]
           {| db := two_clients; timers := [] |} "alice"
           {| name := "Alice"; balance := 1000; transactions := [] |}
           eq_refl).
Defined.




(** ** Where money comes from *)








(** ** What the server never does *)





(** X12. In every state of the server, every live session names a stored
    account, and no account is stored under the empty identifier. *)
Theorem sessions_name_accounts (es : list Event) :
  consistent (db (run es boot).2).
Proof.
  apply run_ok. split; [apply init_consistent|apply Forall_nil_2].
Qed.

Lemma turn_session_kept ev l tok :
  is_Some (sessions (db l) !! tok) →
  is_Some (sessions (db (turn ev l).2) !! tok).
Proof.
  intros Hs. destruct ev as [req|]; simpl.
  - unfold arrive. set (d1 := count_request (db l)).
    destruct (limited d1); [done|].
    destruct (decide (route req = POST_login)) as [Er|Er].
    + rewrite Er. unfold dispatch. rewrite Er. unfold post_login.
      destruct (has (accounts d1) _); simpl; [|done].
      apply lookup_insert_is_Some'. by right.
    + pose proof (dispatch_sessions req d1 Er) as Hd.
      destruct (route req);
        try (destruct (dispatch req d1); simpl in *; by rewrite Hd).
      destruct (authenticate req d1); [done|].
      by destruct (transfer_validate _ req d1).
  - unfold timeout. destruct (timers l) as [|p rest]; [done|].
    destruct (transfer_commit p (db l)) as [out d1] eqn:E. simpl.
    by apply transfer_commit_same_ids in E as (-> & _).
Qed.

(** X13. A session never ends: no request and no timer removes a token
    from the sessions, so a token that is live stays live through any
    history of the loop. *)
Theorem session_never_ends (es : list Event) (l : Loop) (tok : string) :
  is_Some (sessions (db l) !! tok) →
  is_Some (sessions (db (run es l).2) !! tok).
Proof.
  revert l. induction es as [|ev rest IH]; intros l Hs; simpl; [done|].
  pose proof (turn_session_kept ev l tok Hs) as H1.
  destruct (turn ev l) as [out l1]. specialize (IH l1 H1).
  by destruct (run rest l1).
Qed.

Lemma session_never_ends_witness :
  is_Some (sessions
             (db (run [Arrive (login_req "bob" "k3a");
                       Arrive (transfer_req "token_k3a" "alice" 10);
                       Timeout]
                    {| db := two_clients; timers := [] |}).2)
             !! "token_k3a").
Proof.
  apply (session_never_ends
           [Arrive (login_req "bob" "k3a");
            Arrive (transfer_req "token_k3a" "alice" 10); Timeout]
           {| db := two_clients; timers := [] |} "token_k3a").
  by eexists.
Defined.

(** ** How often the rate limiter answers *)





(** ** Double entry *)

Lemma occurrences_app tx l1 l2 :
  occurrences tx (l1 ++ l2) = (occurrences tx l1 + occurrences tx l2)%nat.
Proof. unfold occurrences. by rewrite filter_app, length_app. Qed.

Lemma occurrences_one tx y :
  occurrences tx [y] = if decide (y = tx) then 1%nat else 0%nat.
Proof.
  unfold occurrences. case_decide.
  - by rewrite filter_cons_True.
  - by rewrite filter_cons_False.
Qed.

(** A step that gives every history at most a loan more keeps the
    pairing of debits and credits. *)
Lemma paired_loans d d' :
  (∀ k, history_of d' k = history_of d k ∨
        ∃ a, history_of d' k = history_of d k ++ [loan a]) →
  paired d → paired d'.
Proof.
  intros Hh Hp A B a.
  assert (∀ k tx, (∀ x, tx ≠ loan x) →
            occurrences tx (history_of d' k) = occurrences tx (history_of d k))
    as Hocc.
  { intros k tx Htx. destruct (Hh k) as [-> | [x ->]]; [done|].
    rewrite occurrences_app, occurrences_one.
    rewrite decide_False; [lia|]. intros E. by eapply Htx. }
  rewrite !Hocc by done. apply Hp.
Qed.

Lemma dispatch_history req d k :
  route req ≠ POST_transfer →
  history_of (dispatch req d).2 k = history_of d k ∨
  ∃ a, history_of (dispatch req d).2 k = history_of d k ++ [loan a].
Proof.
  intros Hr. unfold dispatch, authenticated.
  destruct (route req); try done;
    try (destruct (authenticate req d) as [o|u]; [by left|]);
    try by left.
  - unfold post_register.
    destruct (truthy (Req.userId (body req))) eqn:Eu; simpl; [|by left].
    apply truthy_Some in Eu as (j & -> & _).
    destruct (negb (truthy _)); simpl; [by left|].
    destruct (accounts d !! j) eqn:Ej; [by left|].
    left. unfold history_of. simpl.
    destruct (decide (j = k)) as [<-|Hne].
    + by rewrite lookup_insert_eq, Ej.
    + by rewrite lookup_insert_ne.
  - unfold post_login. destruct (negb _); by left.
  - unfold get_balance. repeat case_match; by left.
  - unfold post_loan. destruct (negb _ || _ || _); [by left|].
    destruct (accounts d !! u) as [acc|] eqn:Eu; [|by left].
    unfold history_of. simpl. destruct (decide (u = k)) as [<-|Hne].
    + right. eexists. by rewrite !lookup_alter_eq, Eu.
    + left. by rewrite !lookup_alter_ne.
  - unfold get_statement. repeat case_match; by left.
Qed.

Lemma settle_history d d' p k :
  pending_ok d p →
  (∀ k, accounts d' !! k
        = settle (sender p) (toUserId p) (amount p) k <$> accounts d !! k) →
  history_of d' k
  = history_of d k
    ++ (if decide (k = sender p)
        then [debit (amount p) (toUserId p)] else [])
    ++ (if decide (k = toUserId p)
        then [credit (amount p) (sender p)] else []).
Proof.
  intros [[s Hs] [r Hr]] Hk. unfold history_of. rewrite Hk.
  destruct (accounts d !! k) as [acc|] eqn:E; simpl; [done|].
  repeat case_decide; subst; first [done | congruence].
Qed.

Lemma turn_paired ev l :
  loop_ok l → paired (db l) → paired (db (turn ev l).2).
Proof.
  intros [_ Hp] Hd. destruct ev as [req|]; simpl.
  - unfold arrive. set (d1 := count_request (db l)).
    assert (paired d1) as Hd1 by done.
    destruct (limited d1); [done|].
    destruct (decide (route req = POST_transfer)) as [Er|Er].
    + rewrite Er. destruct (authenticate req d1); [done|].
      by destruct (transfer_validate _ req d1).
    + assert (paired (dispatch req d1).2) as Hd2.
      { eapply paired_loans; [|done]. intros k. by apply dispatch_history. }
      destruct (route req); try done; by destruct (dispatch req d1).
  - unfold timeout. destruct (timers l) as [|p rest]; [done|].
    apply Forall_cons in Hp as [Hp _].
    destruct (transfer_commit_ok p (db l) Hp) as (d' & -> & _ & _ & Hk).
    simpl. intros A B a.
    rewrite !(settle_history (db l) d' p) by done.
    rewrite !occurrences_app. specialize (Hd A B a).
    repeat case_decide; subst; rewrite ?occurrences_one;
      repeat case_decide; simplify_eq; try congruence;
      unfold occurrences in *; simpl; lia.
Qed.

(** X15. Double entry: in every state of the server, overlapping
    transfers included, the history of an account [A] holds a debit of [a]
    to [B] exactly as many times as the history of [B] holds a credit of
    [a] from [A]. *)
Theorem debits_match_credits (es : list Event) (A B : string) (a : Z) :
  occurrences (debit a B) (history_of (db (run es boot).2) A)
  = occurrences (credit a A) (history_of (db (run es boot).2) B).
Proof.
  assert (∀ es l, loop_ok l → paired (db l) → paired (db (run es l).2)) as H.
  { clear. intros es. induction es as [|ev rest IH]; intros l Hl Hp; [done|].
    simpl. pose proof (turn_ok ev l Hl) as Hl1.
    pose proof (turn_paired ev l Hl Hp) as Hp1.
    destruct (turn ev l) as [out l1]. specialize (IH l1 Hl1 Hp1).
    by destruct (run rest l1). }
  apply H; [|done].
  split; [apply init_consistent|apply Forall_nil_2].
Qed.

(** ** Register, log in, read *)

(** X16. Registering a new identifier, logging in with it and reading
    with the token of that login gives back what was registered: /balance
    (when its draw is not below 0.1) replies the opening balance, given or
    the default 1000, and /statement replies an empty history. *)
Theorem register_login_read (rr rl rb : Request) (d : Db) (u n : string) :
  Req.userId (body rr) = Some u → u ≠ "" →
  Req.name (body rr) = Some n → n ≠ "" →
  accounts d !! u = None →
  Req.userId (body rl) = Some u →
  token rb = Some ("token_" +:+ base36 (draw rl)) →
  lt_0_1 (draw rb) = false →
  let d1 := (post_register rr d).2 in
  let d2 := (post_login rl d1).2 in
  authenticated get_balance rb d2
  = (Replied 200 (balance_json u (default 1000 (Req.balance (body rr)))), d2) ∧
  authenticated get_statement rb d2
  = (Replied 200 (statement_json u []), d2).
Proof.
  intros Hu Hne Hn Hnn Hfree Hl Ht Hdraw d1 d2.
  destruct (register_creates_effect rr d u n Hu Hne Hn Hnn Hfree)
    as (Hacc & _).
  fold d1 in Hacc.
  assert (accounts d2 !! u
          = Some {| name := n;
                    balance := default 1000 (Req.balance (body rr));
                    transactions := [] |}) as Hacc2.
  { unfold d2, post_login. rewrite Hl. simpl. by rewrite Hacc. }
  assert (resolve rb d2 = Some u) as Hr.
  { unfold resolve. rewrite Ht. rewrite decide_False by done.
    unfold d2, post_login. rewrite Hl. simpl. rewrite Hacc. simpl.
    by rewrite lookup_insert_eq. }
  unfold authenticated, get_balance, get_statement.
  by rewrite authenticate_resolve, Hr, Hacc2, Hdraw.
Qed.

Lemma register_login_read_witness :
  let d1 := (post_register (register_req (Some "carol") (Some "Carol")
                              (Some 250)) two_clients).2 in
  let d2 := (post_login (login_req "carol" "k3c") d1).2 in
  authenticated get_balance (read_req GET_balance "token_k3c") d2
  = (Replied 200 (balance_json "carol" 250), d2) ∧
  authenticated get_statement (read_req GET_statement "token_k3c") d2
  = (Replied 200 (statement_json "carol" []), d2).
Proof.
  exact (register_login_read
           (register_req (Some "carol") (Some "Carol") (Some 250))
           (login_req "carol" "k3c") (read_req GET_balance "token_k3c")
           two_clients "carol" "Carol" eq_refl ltac:(done) eq_refl
           ltac:(done) eq_refl eq_refl eq_refl eq_refl).
Defined.

(** ** Reads are safe, and when a transfer goes through *)

(** X17. A request to /accounts, /balance, /statement or /metrics, or to
    a route the application does not have, never changes the store,
    whatever its token, its body and the state of the server. *)
Theorem reads_change_nothing (req : Request) (d : Db) :
  route req ∈ [GET_accounts; GET_balance; GET_statement; GET_metrics;
               unmatched] →
  (dispatch req d).2 = d.
Proof.
  intros Hr. unfold dispatch, authenticated, get_accounts, get_balance,
    get_statement.
  destruct (route req); try set_solver;
    repeat case_match; done.
Qed.

Lemma reads_change_nothing_witness :
  (dispatch (read_req GET_balance "token_k3a") two_clients).2 = two_clients.
Proof.
  apply (reads_change_nothing (read_req GET_balance "token_k3a") two_clients).
  simpl. set_solver.
Defined.

